(** * Aeron C client: the image handle ([aeron_image.h])

    A shallow embedding of the inline functions of
    [aeron-client/src/main/c/aeron_image.h] and the properties of the
    image's position validation, reference count and removal bookkeeping.

    C objects live in a store ([world]) addressed by pointers; every
    function of the header takes the pointer it takes in C and runs in a
    small state-and-fault monad over that store.  [int64_t] values are
    integers of [Z] with two's complement wrap-around written out. *)

From Stdlib Require Import ZArith Lia.
From stdpp Require Import base list gmap relations.

Local Open Scope Z_scope.

(** ** 64-bit signed integers *)

Module Int64.

(** [INT64_MIN] and [INT64_MAX]. *)
Definition min_signed : Z := - 2 ^ 63.
Definition max_signed : Z := 2 ^ 63 - 1.

Definition in_range (z : Z) : Prop := min_signed <= z <= max_signed.

(** The value of type [int64_t] congruent to [z] modulo [2^64]. *)
Definition wrap (z : Z) : Z := (z + 2 ^ 63) mod 2 ^ 64 - 2 ^ 63.

Definition add (a b : Z) : Z := wrap (a + b).
Definition sub (a b : Z) : Z := wrap (a - b).

(** Bitwise and of two values in range is in range: no wrap is needed. *)
Definition and (a b : Z) : Z := Z.land a b.

End Int64.

(** [errno] value of [EINVAL] (<errno.h>). *)
Definition EINVAL : Z := 22.

(** Modelled from the spec: [aeron_set_err] (util/aeron_error.h) is not part
    of the header; it records an error code and a formatted message.  The two
    messages [aeron_image_validate_position] formats are kept as data, under
    the names the specification gives the two error kinds:
    - [InvalidPosition position current limit]:
      "<position> position out of range <current>-<limit>";
    - [MisalignedPosition]: "position not aligned to FRAME_ALIGNMENT". *)
Inductive aeron_errmsg : Type :=
  | InvalidPosition (position current_position limit_position : Z)
  | MisalignedPosition.

Section Image.

(** [aeron_client_command_base_t] is declared in aeron_client_conductor.h;
    no function of the header reads or writes it. *)
Context {aeron_client_command_base_t : Type}.

(** [AERON_LOGBUFFER_FRAME_ALIGNMENT] is a macro of the log buffer
    descriptor, not of this header: a parameter of the development.  It is a
    power of two (32 in the examples of the specification). *)
Variable AERON_LOGBUFFER_FRAME_ALIGNMENT : Z.

(** ** Data model *)

(** [struct aeron_image_stct].  Pointers are addresses of the store. *)
Record aeron_image_t : Type := {
  command_base : aeron_client_command_base_t;
  conductor : N;
  subscription : N;
  log_buffer : N;
  subscriber_position : N;
  correlation_id : Z;
  removal_change_number : Z;
  final_position : Z;
  refcnt : Z;
  session_id : Z;
  term_length_mask : Z;
  position_bits_to_shift : N;
  is_closed : bool;
  is_lingering : bool
}.

(** Assignment to [image->refcnt]. *)
Definition set_refcnt (v : Z) (i : aeron_image_t) : aeron_image_t :=
  {| command_base := command_base i; conductor := conductor i;
     subscription := subscription i; log_buffer := log_buffer i;
     subscriber_position := subscriber_position i;
     correlation_id := correlation_id i;
     removal_change_number := removal_change_number i;
     final_position := final_position i; refcnt := v;
     session_id := session_id i; term_length_mask := term_length_mask i;
     position_bits_to_shift := position_bits_to_shift i;
     is_closed := is_closed i; is_lingering := is_lingering i |}.

(** Assignment to [image->is_closed]. *)
Definition set_is_closed (b : bool) (i : aeron_image_t) : aeron_image_t :=
  {| command_base := command_base i; conductor := conductor i;
     subscription := subscription i; log_buffer := log_buffer i;
     subscriber_position := subscriber_position i;
     correlation_id := correlation_id i;
     removal_change_number := removal_change_number i;
     final_position := final_position i; refcnt := refcnt i;
     session_id := session_id i; term_length_mask := term_length_mask i;
     position_bits_to_shift := position_bits_to_shift i;
     is_closed := b; is_lingering := is_lingering i |}.

(** The store: the images the conductor has allocated, the [int64_t] cells
    owned by others (subscriber positions), [errno] and the last error
    recorded by [aeron_set_err]. *)
Record world : Type := {
  images : gmap N aeron_image_t;
  cells : gmap N Z;
  errno : Z;
  last_err : option (Z * aeron_errmsg)
}.

(** ** The monad: state passing, [None] for an access outside the store *)

Definition M (A : Type) : Type := world -> option (A * world).

Definition ret {A : Type} (a : A) : M A := fun w => Some (a, w).

Definition bind {A B : Type} (m : M A) (k : A -> M B) : M B :=
  fun w => match m w with
           | Some (a, w') => k a w'
           | None => None
           end.

Notation "'let*' x ':=' m 'in' k" := (bind m (fun x => k))
  (at level 10, x name, m at level 100, k at level 200, only parsing).
Notation "m '>>' k" := (bind m (fun _ => k))
  (at level 61, left associativity, only parsing).

(** [*image] *)
Definition load_image (image : N) : M aeron_image_t :=
  fun w => match images w !! image with
           | Some i => Some (i, w)
           | None => None
           end.

(** [*image = i], for an image of the store. *)
Definition store_image (image : N) (i : aeron_image_t) : M unit :=
  fun w => match images w !! image with
           | Some _ =>
               Some (tt, {| images := <[image := i]> (images w);
                            cells := cells w; errno := errno w;
                            last_err := last_err w |})
           | None => None
           end.

(** [*p] for [int64_t *p] *)
Definition load_int64 (p : N) : M Z :=
  fun w => match cells w !! p with
           | Some v => Some (v, w)
           | None => None
           end.

(** [errno = e] *)
Definition set_errno (e : Z) : M unit :=
  fun w => Some (tt, {| images := images w; cells := cells w; errno := e;
                        last_err := last_err w |}).

(** Modelled from the spec: [aeron_set_err(errcode, format, ...)] is defined
    in util/aeron_error.c; it replaces the recorded error. *)
Definition aeron_set_err (errcode : Z) (msg : aeron_errmsg) : M unit :=
  fun w => Some (tt, {| images := images w; cells := cells w;
                        errno := errno w;
                        last_err := Some (errcode, msg) |}).

(** ** The functions of the header *)

Definition aeron_image_removal_change_number (image : N) : M Z :=
  let* i := load_image image in
  ret (removal_change_number i).

Definition aeron_image_is_in_use_by_subcription
    (image : N) (last_change_number : Z) : M bool :=
  let* i := load_image image in
  ret (removal_change_number i >? last_change_number).

Definition aeron_image_validate_position (image : N) (position : Z) : M Z :=
  let* i := load_image image in
  let* current_position := load_int64 (subscriber_position i) in
  let limit_position :=
    Int64.add
      (Int64.add
         (Int64.sub current_position
            (Int64.and current_position (term_length_mask i)))
         (term_length_mask i))
      1 in
  if (position <? current_position) || (position >? limit_position) then
    set_errno EINVAL >>
    aeron_set_err EINVAL
      (InvalidPosition position current_position limit_position) >>
    ret (-1)
  else if negb (0 =? Z.land position (AERON_LOGBUFFER_FRAME_ALIGNMENT - 1))
  then
    set_errno EINVAL >>
    aeron_set_err EINVAL MisalignedPosition >>
    ret (-1)
  else ret 0.

(** Modelled from the spec: [AERON_GET_AND_ADD_INT64(original, dst, value)]
    is a macro of concurrent/aeron_atomic.h: one atomic step that yields the
    old value of [dst] and adds [value] to it.  Atomic arithmetic on a signed
    integer wraps around.  [dst] is [image->refcnt] at both uses. *)
Definition AERON_GET_AND_ADD_INT64 (image : N) (value : Z) : M Z :=
  let* i := load_image image in
  store_image image (set_refcnt (Int64.add (refcnt i) value) i) >>
  ret (refcnt i).

(** Modelled from the spec: [AERON_GET_VOLATILE(dst, src)] is a macro of
    concurrent/aeron_atomic.h: one read of [src], with acquire ordering.
    [src] is [image->refcnt] at its only use. *)
Definition AERON_GET_VOLATILE (image : N) : M Z :=
  let* i := load_image image in
  ret (refcnt i).

Definition aeron_image_incr_refcnt (image : N) : M Z :=
  let* result := AERON_GET_AND_ADD_INT64 image 1 in
  ret result.

Definition aeron_image_decr_refcnt (image : N) : M Z :=
  let* result := AERON_GET_AND_ADD_INT64 image (-1) in
  ret result.

Definition aeron_image_refcnt_volatile (image : N) : M Z :=
  let* value := AERON_GET_VOLATILE image in
  ret value.

(** Modelled from the spec: [aeron_image_force_close] is declared in the
    header and defined in aeron_image.c.  It "sets the closed flag; does not
    touch the reference count and does not deallocate". *)
Definition aeron_image_force_close (image : N) : M unit :=
  let* i := load_image image in
  store_image image (set_is_closed true i).

(** ** Reading results *)

(** The call returned [-1] with [errno = EINVAL] and recorded [e]. *)
Definition fails_with (r : option (Z * world)) (e : aeron_errmsg) : Prop :=
  exists w', r = Some (-1, w') /\ errno w' = EINVAL /\
             last_err w' = Some (EINVAL, e).

(** The store after a failed [aeron_image_validate_position]. *)
Definition with_error (e : aeron_errmsg) (w : world) : world :=
  {| images := images w; cells := cells w; errno := EINVAL;
     last_err := Some (EINVAL, e) |}.

(** The store after [image->refcnt = v], for an image [i] of the store. *)
Definition with_refcnt (image : N) (i : aeron_image_t) (v : Z) (w : world) :
    world :=
  {| images := <[image := set_refcnt v i]> (images w); cells := cells w;
     errno := errno w; last_err := last_err w |}.

(** The store after [image->is_closed = true], for an image [i] of the
    store. *)
Definition with_closed (image : N) (i : aeron_image_t) (w : world) : world :=
  {| images := <[image := set_is_closed true i]> (images w);
     cells := cells w; errno := errno w; last_err := last_err w |}.

(** The limit [aeron_image_validate_position] computes, as a function of the
    subscriber position and the mask. *)
Definition limit_of (current_position mask : Z) : Z :=
  Int64.add
    (Int64.add
       (Int64.sub current_position (Int64.and current_position mask)) mask)
    1.

(** ** Threads sharing one image

    The reference count is only touched through [AERON_GET_AND_ADD_INT64]
    and [AERON_GET_VOLATILE], each one atomic step, so a concurrent run is
    an interleaving of the calls of its threads. *)

Inductive refcnt_op : Type := op_incr | op_decr.

Definition run_op (image : N) (op : refcnt_op) : M Z :=
  match op with
  | op_incr => aeron_image_incr_refcnt image
  | op_decr => aeron_image_decr_refcnt image
  end.

(** A configuration: the store and, for every thread, the calls it has yet
    to make.  One step: some thread makes its next call. *)
Inductive step (image : N) :
    world * list (list refcnt_op) -> world * list (list refcnt_op) -> Prop :=
  | step_thread (w w' : world) (threads : list (list refcnt_op)) (tid : nat)
      (op : refcnt_op) (rest : list refcnt_op) (result : Z) :
      threads !! tid = Some (op :: rest) ->
      run_op image op w = Some (result, w') ->
      step image (w, threads) (w', <[tid := rest]> threads).

(** Every thread has made all its calls. *)
Definition finished (threads : list (list refcnt_op)) : Prop :=
  Forall (fun prog => prog = []) threads.

Definition is_op (op o : refcnt_op) : bool :=
  match op, o with
  | op_incr, op_incr | op_decr, op_decr => true
  | _, _ => false
  end.

(** The number of calls of [op] in a thread, and in all threads. *)
Fixpoint calls (op : refcnt_op) (prog : list refcnt_op) : Z :=
  match prog with
  | [] => 0
  | o :: rest => (if is_op op o then 1 else 0) + calls op rest
  end.

(** The sum of a measure of the threads' remaining calls. *)
Fixpoint total (f : list refcnt_op -> Z) (threads : list (list refcnt_op)) :
    Z :=
  match threads with
  | [] => 0
  | prog :: others => f prog + total f others
  end.

Definition total_calls (op : refcnt_op) (threads : list (list refcnt_op)) :
    Z :=
  total (calls op) threads.

(** The caller's contract of [aeron_image_decr_refcnt]: a thread that holds
    [held] references only gives back references it holds. *)
Fixpoint releases_held (held : Z) (prog : list refcnt_op) : bool :=
  match prog with
  | [] => true
  | op_incr :: rest => releases_held (held + 1) rest
  | op_decr :: rest => (0 <? held) && releases_held (held - 1) rest
  end.

(** The least number of references a thread must hold to keep the contract
    while it makes the calls of [prog]. *)
Fixpoint deficit (prog : list refcnt_op) : Z :=
  match prog with
  | [] => 0
  | op_incr :: rest => Z.max 0 (deficit rest - 1)
  | op_decr :: rest => deficit rest + 1
  end.

(** The calls a thread has yet to make, counted. *)
Definition pending (prog : list refcnt_op) : Z := Z.of_nat (length prog).

(** ** A store to run the functions on *)

(** An image with the given mask, count, change number and closed flag whose
    subscriber position is cell 7. *)
Definition image_with (cb : aeron_client_command_base_t)
    (mask count change : Z) (closed : bool) : aeron_image_t :=
  {| command_base := cb; conductor := 1%N; subscription := 2%N;
     log_buffer := 3%N; subscriber_position := 7%N; correlation_id := 11;
     removal_change_number := change; final_position := 0; refcnt := count;
     session_id := 13; term_length_mask := mask;
     position_bits_to_shift := 16%N; is_closed := closed;
     is_lingering := false |}.

(** The store with that image at address 5 and the subscriber position
    [current] in cell 7. *)
Definition world_with (i : aeron_image_t) (current : Z) : world :=
  {| images := {[ 5%N := i ]}; cells := {[ 7%N := current ]}; errno := 0;
     last_err := None |}.

(** ** Arithmetic of [int64_t] *)

Lemma wrap_in_range (z : Z) : Int64.in_range z -> Int64.wrap z = z.
Proof.
  unfold Int64.in_range, Int64.min_signed, Int64.max_signed, Int64.wrap.
  intros Hz. rewrite Z.mod_small; lia.
Qed.

Lemma wrap_range (z : Z) : Int64.in_range (Int64.wrap z).
Proof.
  unfold Int64.in_range, Int64.min_signed, Int64.max_signed, Int64.wrap.
  pose proof (Z.mod_pos_bound (z + 2 ^ 63) (2 ^ 64)). lia.
Qed.

Lemma wrap_add_l (a b : Z) : Int64.wrap (Int64.wrap a + b) = Int64.wrap (a + b).
Proof.
  unfold Int64.wrap.
  replace ((a + 2 ^ 63) mod 2 ^ 64 - 2 ^ 63 + b + 2 ^ 63)
    with ((a + 2 ^ 63) mod 2 ^ 64 + b) by lia.
  rewrite Zplus_mod_idemp_l. f_equal. f_equal. lia.
Qed.

(** The low bits selected by a mask [2^k - 1] are the remainder by [2^k]. *)
Lemma land_mask (a k : Z) : 0 <= k -> Z.land a (2 ^ k - 1) = a mod 2 ^ k.
Proof.
  intros Hk. rewrite <- Z.land_ones by assumption.
  rewrite Z.ones_equiv. reflexivity.
Qed.

(** For an alignment that is a power of two, the test of the source is
    divisibility. *)
Lemma aligned_iff (position k : Z) :
  0 <= k ->
  (0 =? Z.land position (2 ^ k - 1)) = true <-> (2 ^ k | position).
Proof.
  intros Hk. rewrite land_mask by assumption.
  rewrite Z.eqb_eq. rewrite <- Z.mod_divide by lia. split; congruence.
Qed.

(** Without overflow the limit is the start of the term after the one that
    holds the subscriber position. *)
Lemma limit_of_next_term (current k : Z) :
  0 <= k <= 62 ->
  Int64.in_range current ->
  (current / 2 ^ k + 1) * 2 ^ k <= Int64.max_signed ->
  limit_of current (2 ^ k - 1) = (current / 2 ^ k + 1) * 2 ^ k.
Proof.
  intros Hk Hc Hl. unfold limit_of, Int64.add, Int64.sub, Int64.and.
  rewrite land_mask by lia.
  assert (HL : 0 < 2 ^ k) by (apply Z.pow_pos_nonneg; lia).
  pose proof (Z.mod_pos_bound current (2 ^ k) HL) as Hm.
  pose proof (Z.div_mod current (2 ^ k) ltac:(lia)) as Hd.
  assert (Hsplit : 2 ^ 63 = 2 ^ k * 2 ^ (63 - k)).
  { rewrite <- Z.pow_add_r by lia. f_equal. lia. }
  assert (Hlow : - 2 ^ (63 - k) <= current / 2 ^ k).
  { apply Z.div_le_lower_bound; [assumption|].
    unfold Int64.in_range, Int64.min_signed in Hc. lia. }
  unfold Int64.in_range, Int64.min_signed, Int64.max_signed in *.
  assert (Hbase : current - current mod 2 ^ k = 2 ^ k * (current / 2 ^ k))
    by lia.
  rewrite (wrap_in_range (current - _)).
  2:{ unfold Int64.in_range, Int64.min_signed, Int64.max_signed.
      rewrite Hbase. nia. }
  rewrite (wrap_in_range (current - _ + _)).
  2:{ unfold Int64.in_range, Int64.min_signed, Int64.max_signed.
      rewrite Hbase. nia. }
  rewrite wrap_in_range.
  2:{ unfold Int64.in_range, Int64.min_signed, Int64.max_signed.
      rewrite Hbase. nia. }
  rewrite Hbase. ring.
Qed.

(** ** What [aeron_image_validate_position] computes *)

Lemma validate_position_eq (w : world) (image : N) (i : aeron_image_t)
    (current position : Z) :
  images w !! image = Some i ->
  cells w !! subscriber_position i = Some current ->
  aeron_image_validate_position image position w =
    let limit := limit_of current (term_length_mask i) in
    if (position <? current) || (position >? limit) then
      Some (-1, with_error (InvalidPosition position current limit) w)
    else if negb (0 =? Z.land position (AERON_LOGBUFFER_FRAME_ALIGNMENT - 1))
    then Some (-1, with_error MisalignedPosition w)
    else Some (0, w).
Proof.
  intros Hi Hc.
  unfold aeron_image_validate_position, bind, load_image, load_int64.
  rewrite Hi, Hc. cbn zeta. fold (limit_of current (term_length_mask i)).
  destruct ((position <? current) || (position >? _)); [reflexivity|].
  destruct (negb _); reflexivity.
Qed.

Lemma fails_with_error (e e' : aeron_errmsg) (w : world) :
  fails_with (Some (-1, with_error e w)) e' <-> e = e'.
Proof.
  unfold fails_with. split.
  - intros (w' & Hw & _ & He). injection Hw as <-. cbn in He. congruence.
  - intros <-. exists (with_error e w). repeat split.
Qed.

Lemma fails_with_accepted (e : aeron_errmsg) (w : world) :
  ~ fails_with (Some (0, w)) e.
Proof. intros (w' & Hw & _). discriminate. Qed.

Lemma range_test (position current limit : Z) :
  (position <? current) || (position >? limit) = true <->
  position < current \/ position > limit.
Proof.
  rewrite orb_true_iff, Z.ltb_lt, Z.gtb_gt. reflexivity.
Qed.

(** ** Removal bookkeeping *)

(** C4: [aeron_image_is_in_use_by_subcription image n] returns true exactly
    when the image's [removal_change_number] is greater than [n]; it returns
    false for every [n >= removal_change_number].  It changes nothing. *)
Theorem is_in_use_by_subcription_iff (w : world) (image : N)
    (i : aeron_image_t) (n : Z) :
  images w !! image = Some i ->
  exists b : bool,
    aeron_image_is_in_use_by_subcription image n w = Some (b, w) /\
    (b = true <-> removal_change_number i > n) /\
    (n >= removal_change_number i -> b = false).
Proof.
  intros Hi. exists (removal_change_number i >? n).
  unfold aeron_image_is_in_use_by_subcription, bind, load_image, ret.
  rewrite Hi. split; [reflexivity|].
  rewrite Z.gtb_gt. split; [reflexivity|].
  intros Hn. apply not_true_is_false. rewrite Z.gtb_gt. lia.
Qed.

(** ** Position validation *)

(** C1: with [current] the subscriber position and [limit] the value
    [(current - (current & term_length_mask)) + term_length_mask + 1],
    [aeron_image_validate_position] fails with [InvalidPosition] exactly when
    [position < current] or [position > limit]; a position of
    [[current, limit]] that is a multiple of the frame alignment is accepted
    and leaves the store as it was.  With term length 65536, alignment 32 and
    subscriber position 0, positions 0 and 65536 are accepted and 65568 is
    rejected with [InvalidPosition]. *)
Theorem validate_position_range (w : world) (image : N) (i : aeron_image_t)
    (current position k : Z) :
  images w !! image = Some i ->
  cells w !! subscriber_position i = Some current ->
  0 <= k ->
  AERON_LOGBUFFER_FRAME_ALIGNMENT = 2 ^ k ->
  let limit :=
    Int64.add
      (Int64.add (Int64.sub current (Int64.and current (term_length_mask i)))
         (term_length_mask i)) 1 in
  (fails_with (aeron_image_validate_position image position w)
     (InvalidPosition position current limit) <->
   position < current \/ position > limit) /\
  (current <= position <= limit ->
   (AERON_LOGBUFFER_FRAME_ALIGNMENT | position) ->
   aeron_image_validate_position image position w = Some (0, w)) /\
  (k = 5 -> term_length_mask i = 65535 -> current = 0 ->
   aeron_image_validate_position image 0 w = Some (0, w) /\
   aeron_image_validate_position image 65536 w = Some (0, w) /\
   fails_with (aeron_image_validate_position image 65568 w)
     (InvalidPosition 65568 0 65536)).
Proof.
  intros Hi Hc Hk Ha limit. fold (limit_of current (term_length_mask i)) in limit.
  assert (Hrun := fun p => validate_position_eq w image i current p Hi Hc).
  cbn zeta in Hrun. fold limit in Hrun.
  split; [|split].
  - rewrite Hrun, <- range_test.
    destruct ((position <? current) || (position >? limit)).
    + rewrite fails_with_error. tauto.
    + split; [|discriminate]. intros Hf. exfalso.
      destruct (negb _).
      * apply fails_with_error in Hf. discriminate.
      * exact (fails_with_accepted _ _ Hf).
  - intros Hin Hdiv. rewrite Hrun.
    destruct ((position <? current) || (position >? limit)) eqn:Hr.
    + apply range_test in Hr. lia.
    + rewrite Ha in *. apply aligned_iff in Hdiv; [|assumption].
      rewrite Hdiv. reflexivity.
  - intros -> Hm ->. subst limit. rewrite Hm in Hrun.
    rewrite !Hrun, Ha. repeat split.
    exists (with_error (InvalidPosition 65568 0 65536) w). repeat split.
Qed.

(** C3: the upper bound is inclusive.  For an image whose mask is that of a
    term length [2^t] and whose limit does not overflow, the limit is the
    first offset of the term after the one that holds the subscriber
    position, and a frame-aligned position equal to it is accepted. *)
Theorem validate_position_limit_inclusive (w : world) (image : N)
    (i : aeron_image_t) (current position k t : Z) :
  images w !! image = Some i ->
  cells w !! subscriber_position i = Some current ->
  0 <= k ->
  AERON_LOGBUFFER_FRAME_ALIGNMENT = 2 ^ k ->
  0 <= t <= 62 ->
  term_length_mask i = 2 ^ t - 1 ->
  Int64.in_range current ->
  (current / 2 ^ t + 1) * 2 ^ t <= Int64.max_signed ->
  let limit :=
    Int64.add
      (Int64.add (Int64.sub current (Int64.and current (term_length_mask i)))
         (term_length_mask i)) 1 in
  position = limit ->
  (AERON_LOGBUFFER_FRAME_ALIGNMENT | position) ->
  limit = (current / 2 ^ t + 1) * 2 ^ t /\
  aeron_image_validate_position image position w = Some (0, w).
Proof.
  intros Hi Hc Hk Ha Ht Hm Hcur Hmax limit Hp Hdiv.
  fold (limit_of current (term_length_mask i)) in limit.
  assert (Hl : limit = (current / 2 ^ t + 1) * 2 ^ t).
  { subst limit. rewrite Hm. apply limit_of_next_term; assumption. }
  split; [exact Hl|].
  rewrite (validate_position_eq w image i current position Hi Hc).
  cbn zeta. fold limit.
  assert (HL : 0 < 2 ^ t) by (apply Z.pow_pos_nonneg; lia).
  pose proof (Z.mod_pos_bound current (2 ^ t) HL) as Hmod.
  pose proof (Z.div_mod current (2 ^ t) ltac:(lia)) as Hd.
  destruct ((position <? current) || (position >? limit)) eqn:Hr.
  - apply range_test in Hr. nia.
  - rewrite Ha in *. apply aligned_iff in Hdiv; [|assumption].
    rewrite Hdiv. reflexivity.
Qed.

(** C5: a position of [[current, limit]] that is not a multiple of the frame
    alignment is rejected with [MisalignedPosition]; the range is tested
    first, so a misaligned position outside the range is rejected with
    [InvalidPosition], not [MisalignedPosition].  With term length 65536,
    alignment 32 and subscriber position 0, position 31 is rejected with
    [MisalignedPosition]. *)
Theorem validate_position_misaligned (w : world) (image : N)
    (i : aeron_image_t) (current position k : Z) :
  images w !! image = Some i ->
  cells w !! subscriber_position i = Some current ->
  0 <= k ->
  AERON_LOGBUFFER_FRAME_ALIGNMENT = 2 ^ k ->
  ~ (AERON_LOGBUFFER_FRAME_ALIGNMENT | position) ->
  let limit :=
    Int64.add
      (Int64.add (Int64.sub current (Int64.and current (term_length_mask i)))
         (term_length_mask i)) 1 in
  (current <= position <= limit ->
   fails_with (aeron_image_validate_position image position w)
     MisalignedPosition) /\
  (position < current \/ position > limit ->
   fails_with (aeron_image_validate_position image position w)
     (InvalidPosition position current limit) /\
   ~ fails_with (aeron_image_validate_position image position w)
       MisalignedPosition) /\
  (k = 5 -> term_length_mask i = 65535 -> current = 0 ->
   fails_with (aeron_image_validate_position image 31 w) MisalignedPosition).
Proof.
  intros Hi Hc Hk Ha Hdiv limit.
  fold (limit_of current (term_length_mask i)) in limit.
  assert (Hrun := fun p => validate_position_eq w image i current p Hi Hc).
  cbn zeta in Hrun. fold limit in Hrun.
  split; [|split].
  - intros Hin. rewrite Hrun.
    destruct ((position <? current) || (position >? limit)) eqn:Hr.
    + apply range_test in Hr. lia.
    + destruct (0 =? Z.land position (AERON_LOGBUFFER_FRAME_ALIGNMENT - 1))
        eqn:Hal.
      * exfalso. apply Hdiv. rewrite Ha in *. apply aligned_iff; assumption.
      * cbn. apply fails_with_error. reflexivity.
  - intros Hout. apply range_test in Hout. rewrite Hrun, Hout.
    rewrite !fails_with_error. split; [reflexivity|discriminate].
  - intros -> Hm ->. subst limit. rewrite Hm in Hrun.
    rewrite Hrun, Ha. apply fails_with_error. reflexivity.
Qed.

(** C9: [aeron_image_validate_position] returns, with 0 or -1, and whether
    it accepts or rejects the position it leaves every image of the store
    (so every field of its own image) and every position cell as they
    were. *)
Theorem validate_position_read_only (w : world) (image : N)
    (i : aeron_image_t) (current position : Z) :
  images w !! image = Some i ->
  cells w !! subscriber_position i = Some current ->
  exists (r : Z) (w' : world),
    aeron_image_validate_position image position w = Some (r, w') /\
    (r = 0 \/ r = -1) /\
    images w' = images w /\ cells w' = cells w /\
    images w' !! image = Some i /\
    cells w' !! subscriber_position i = Some current.
Proof.
  intros Hi Hc.
  rewrite (validate_position_eq w image i current position Hi Hc). cbn zeta.
  destruct ((position <? current) || _).
  - eexists _, _. split; [reflexivity|]. cbn. auto.
  - destruct (negb _); eexists _, _; (split; [reflexivity|]); cbn; auto.
Qed.

(** ** Reference count *)

Lemma get_and_add_eq (w : world) (image : N) (i : aeron_image_t) (value : Z) :
  images w !! image = Some i ->
  AERON_GET_AND_ADD_INT64 image value w =
    Some (refcnt i, with_refcnt image i (Int64.add (refcnt i) value) w).
Proof.
  intros Hi. unfold AERON_GET_AND_ADD_INT64, bind, load_image, store_image.
  rewrite Hi. cbn. rewrite Hi. reflexivity.
Qed.

Lemma run_op_eq (w : world) (image : N) (i : aeron_image_t) (op : refcnt_op) :
  images w !! image = Some i ->
  run_op image op w =
    Some (refcnt i,
          with_refcnt image i
            (Int64.add (refcnt i) (if is_op op_incr op then 1 else -1)) w).
Proof.
  intros Hi.
  destruct op; unfold run_op, aeron_image_incr_refcnt,
    aeron_image_decr_refcnt, bind; rewrite (get_and_add_eq w image i _ Hi);
    reflexivity.
Qed.

Lemma refcnt_volatile_eq (w : world) (image : N) (i : aeron_image_t) :
  images w !! image = Some i ->
  aeron_image_refcnt_volatile image w = Some (refcnt i, w).
Proof.
  intros Hi.
  unfold aeron_image_refcnt_volatile, AERON_GET_VOLATILE, bind, load_image.
  rewrite Hi. reflexivity.
Qed.

Lemma with_refcnt_lookup (w : world) (image : N) (i : aeron_image_t) (v : Z) :
  images (with_refcnt image i v w) !! image = Some (set_refcnt v i).
Proof. cbn. apply lookup_insert_eq. Qed.

Lemma with_refcnt_restore (w : world) (image : N) (i : aeron_image_t)
    (v : Z) :
  images w !! image = Some i ->
  with_refcnt image (set_refcnt v i) (refcnt i) (with_refcnt image i v w) = w.
Proof.
  intros Hi. destruct w as [imgs cs e le]. unfold with_refcnt. cbn in *.
  f_equal. rewrite insert_insert_eq.
  replace (set_refcnt (refcnt i) (set_refcnt v i)) with i
    by (destruct i; reflexivity).
  apply insert_id. exact Hi.
Qed.

(** C6: [aeron_image_incr_refcnt] returns the count the image had before the
    call and stores that count plus one (as an [int64_t]: exactly one more
    below [INT64_MAX]); nothing else of the store changes. *)
Theorem incr_refcnt_spec (w : world) (image : N) (i : aeron_image_t) :
  images w !! image = Some i ->
  Int64.in_range (refcnt i) ->
  refcnt i < Int64.max_signed ->
  exists w' : world,
    aeron_image_incr_refcnt image w = Some (refcnt i, w') /\
    w' = with_refcnt image i (refcnt i + 1) w /\
    aeron_image_refcnt_volatile image w' = Some (refcnt i + 1, w').
Proof.
  intros Hi Hr Hmax. unfold aeron_image_incr_refcnt, bind.
  rewrite (get_and_add_eq w image i 1 Hi). unfold Int64.add.
  rewrite wrap_in_range
    by (unfold Int64.in_range, Int64.min_signed, Int64.max_signed in *; lia).
  eexists. split; [reflexivity|]. split; [reflexivity|].
  apply (refcnt_volatile_eq _ image (set_refcnt (refcnt i + 1) i)).
  apply with_refcnt_lookup.
Qed.

(** C7: [aeron_image_decr_refcnt] returns the count the image had before the
    call and stores that count minus one (exactly one less above
    [INT64_MIN]); there is no guard against underflow: at count 0 it returns
    0 and leaves the count at -1. *)
Theorem decr_refcnt_spec (w : world) (image : N) (i : aeron_image_t) :
  images w !! image = Some i ->
  Int64.in_range (refcnt i) ->
  Int64.min_signed < refcnt i ->
  exists w' : world,
    aeron_image_decr_refcnt image w = Some (refcnt i, w') /\
    w' = with_refcnt image i (refcnt i - 1) w /\
    aeron_image_refcnt_volatile image w' = Some (refcnt i - 1, w') /\
    (refcnt i = 0 ->
     aeron_image_decr_refcnt image w = Some (0, w') /\
     aeron_image_refcnt_volatile image w' = Some (-1, w')).
Proof.
  intros Hi Hr Hmin. unfold aeron_image_decr_refcnt, bind.
  rewrite (get_and_add_eq w image i (-1) Hi). unfold Int64.add.
  rewrite wrap_in_range
    by (unfold Int64.in_range, Int64.min_signed, Int64.max_signed in *; lia).
  replace (refcnt i + -1) with (refcnt i - 1) by lia.
  assert (Hv : aeron_image_refcnt_volatile image
                 (with_refcnt image i (refcnt i - 1) w)
               = Some (refcnt i - 1, with_refcnt image i (refcnt i - 1) w)).
  { apply (refcnt_volatile_eq _ image (set_refcnt (refcnt i - 1) i)).
    apply with_refcnt_lookup. }
  eexists. split; [reflexivity|]. split; [reflexivity|].
  split; [exact Hv|]. intros H0. rewrite H0 in *. split; [reflexivity|exact Hv].
Qed.

(** C10: [aeron_image_incr_refcnt] followed by [aeron_image_decr_refcnt] on
    the same image restores the count (and the whole store), and the
    decrement returns one more than the increment returned (the count being
    below [INT64_MAX]). *)
Theorem incr_decr_roundtrip (w : world) (image : N) (i : aeron_image_t) :
  images w !! image = Some i ->
  Int64.in_range (refcnt i) ->
  exists (a b : Z) (w1 : world),
    aeron_image_incr_refcnt image w = Some (a, w1) /\
    aeron_image_decr_refcnt image w1 = Some (b, w) /\
    a = refcnt i /\
    aeron_image_refcnt_volatile image w = Some (refcnt i, w) /\
    (refcnt i < Int64.max_signed -> b = a + 1).
Proof.
  intros Hi Hr.
  exists (refcnt i), (Int64.add (refcnt i) 1),
    (with_refcnt image i (Int64.add (refcnt i) 1) w).
  split; [|split; [|split; [|split]]].
  - unfold aeron_image_incr_refcnt, bind.
    rewrite (get_and_add_eq w image i 1 Hi). reflexivity.
  - unfold aeron_image_decr_refcnt, bind.
    rewrite (get_and_add_eq _ image (set_refcnt (Int64.add (refcnt i) 1) i)
               (-1)) by apply with_refcnt_lookup.
    cbn [refcnt set_refcnt].
    assert (Hback : Int64.add (Int64.add (refcnt i) 1) (-1) = refcnt i).
    { unfold Int64.add. rewrite wrap_add_l.
      replace (refcnt i + 1 + -1) with (refcnt i) by lia.
      apply wrap_in_range. exact Hr. }
    rewrite Hback, with_refcnt_restore by exact Hi. reflexivity.
  - reflexivity.
  - apply refcnt_volatile_eq. exact Hi.
  - intros Hmax. unfold Int64.add. apply wrap_in_range.
    unfold Int64.in_range, Int64.min_signed, Int64.max_signed in *. lia.
Qed.

(** ** Forced close *)

Lemma force_close_eq (w : world) (image : N) (i : aeron_image_t) :
  images w !! image = Some i ->
  aeron_image_force_close image w = Some (tt, with_closed image i w).
Proof.
  intros Hi. unfold aeron_image_force_close, bind, load_image, store_image.
  rewrite Hi. cbn. rewrite Hi. reflexivity.
Qed.

(** C8: [aeron_image_force_close] leaves [is_closed] set; a second call
    returns the store of the first unchanged; the reference count is what it
    was, no image leaves the store, every other image and every position
    cell is untouched. *)
Theorem force_close_idempotent (w : world) (image : N) (i : aeron_image_t) :
  images w !! image = Some i ->
  exists (w1 : world) (i1 : aeron_image_t),
    aeron_image_force_close image w = Some (tt, w1) /\
    aeron_image_force_close image w1 = Some (tt, w1) /\
    images w1 !! image = Some i1 /\
    is_closed i1 = true /\
    refcnt i1 = refcnt i /\
    aeron_image_refcnt_volatile image w1 = Some (refcnt i, w1) /\
    dom (images w1) = dom (images w) /\
    (forall other : N, other <> image ->
       images w1 !! other = images w !! other) /\
    cells w1 = cells w.
Proof.
  intros Hi. exists (with_closed image i w), (set_is_closed true i).
  assert (H1 : images (with_closed image i w) !! image
               = Some (set_is_closed true i)) by apply lookup_insert_eq.
  split; [apply force_close_eq; exact Hi|].
  split.
  { rewrite (force_close_eq _ image _ H1). do 2 f_equal.
    unfold with_closed. cbn. rewrite insert_insert_eq. reflexivity. }
  split; [exact H1|]. split; [reflexivity|]. split; [reflexivity|].
  split; [exact (refcnt_volatile_eq _ image _ H1)|].
  split.
  { cbn. rewrite dom_insert_L. apply subseteq_union_1_L.
    apply singleton_subseteq_l, elem_of_dom. eauto. }
  split; [|reflexivity].
  intros other Hne. cbn. apply lookup_insert_ne. congruence.
Qed.

(** ** Reference count under concurrent calls *)

Lemma total_insert (f : list refcnt_op -> Z) (threads : list (list refcnt_op))
    (tid : nat) (prog prog' : list refcnt_op) :
  threads !! tid = Some prog ->
  total f (<[tid := prog']> threads) = total f threads - f prog + f prog'.
Proof.
  revert tid. induction threads as [|p ps IH]; intros [|tid] Hl;
    try discriminate; simpl in *.
  - injection Hl as ->. lia.
  - rewrite (IH tid Hl). lia.
Qed.

Lemma total_nonneg (f : list refcnt_op -> Z) (threads : list (list refcnt_op)) :
  (forall p, 0 <= f p) -> 0 <= total f threads.
Proof.
  intros Hf. induction threads as [|p ps IH]; cbn; [lia|].
  specialize (Hf p). lia.
Qed.

Lemma total_lookup_le (f : list refcnt_op -> Z)
    (threads : list (list refcnt_op)) (tid : nat) (prog : list refcnt_op) :
  (forall p, 0 <= f p) ->
  threads !! tid = Some prog ->
  f prog <= total f threads.
Proof.
  intros Hf. revert tid. induction threads as [|p ps IH]; intros [|tid] Hl;
    try discriminate; cbn in *.
  - injection Hl as ->. pose proof (total_nonneg f ps Hf). lia.
  - specialize (IH tid Hl). specialize (Hf p). lia.
Qed.

Lemma total_finished (f : list refcnt_op -> Z)
    (threads : list (list refcnt_op)) :
  f [] = 0 -> finished threads -> total f threads = 0.
Proof.
  intros Hf Hfin. induction Hfin as [|p ps Hp _ IH]; cbn; [reflexivity|].
  rewrite Hp, Hf, IH. reflexivity.
Qed.

Lemma calls_nonneg (op : refcnt_op) (prog : list refcnt_op) :
  0 <= calls op prog.
Proof. induction prog as [|o rest IH]; cbn; [lia|]. destruct (is_op op o); lia. Qed.

Lemma deficit_nonneg (prog : list refcnt_op) : 0 <= deficit prog.
Proof. induction prog as [|[] rest IH]; cbn; lia. Qed.

Lemma pending_nonneg (prog : list refcnt_op) : 0 <= pending prog.
Proof. unfold pending. lia. Qed.

Lemma pending_cons (op : refcnt_op) (rest : list refcnt_op) :
  pending (op :: rest) = pending rest + 1.
Proof. unfold pending. cbn [length]. lia. Qed.

(** A thread that keeps the contract with [held] references needs no more
    than [held]. *)
Lemma releases_held_deficit (prog : list refcnt_op) (held : Z) :
  0 <= held -> releases_held held prog = true -> deficit prog <= held.
Proof.
  revert held. induction prog as [|[] rest IH]; intros held Hh Hr; cbn in *.
  - exact Hh.
  - specialize (IH (held + 1) ltac:(lia) Hr). lia.
  - apply andb_true_iff in Hr as [Hpos Hr]. apply Z.ltb_lt in Hpos.
    specialize (IH (held - 1) ltac:(lia) Hr). lia.
Qed.

Lemma total_deficit_contract (threads : list (list refcnt_op)) :
  Forall (fun prog => releases_held 0 prog = true) threads ->
  total deficit threads = 0.
Proof.
  induction 1 as [|p ps Hp _ IH]; cbn; [reflexivity|].
  pose proof (releases_held_deficit p 0 ltac:(lia) Hp).
  pose proof (deficit_nonneg p). lia.
Qed.

(** One step is one atomic add of 1 or -1 by the thread that moves. *)
Lemma step_inv (image : N) (w w' : world) (threads threads' : list (list refcnt_op))
    (i : aeron_image_t) :
  images w !! image = Some i ->
  step image (w, threads) (w', threads') ->
  exists (tid : nat) (op : refcnt_op) (rest : list refcnt_op),
    threads !! tid = Some (op :: rest) /\
    threads' = <[tid := rest]> threads /\
    w' = with_refcnt image i
           (Int64.add (refcnt i) (if is_op op_incr op then 1 else -1)) w.
Proof.
  intros Hi Hs. inversion Hs as [? ? ? tid op rest result Hl Hrun]; subst.
  rewrite (run_op_eq _ image i op Hi) in Hrun. injection Hrun as _ <-.
  exists tid, op, rest. auto.
Qed.

(** The count plus the increments yet to come minus the decrements yet to
    come is the same, modulo [2^64], all along a run. *)
Lemma steps_balance (image : N) (c c' : world * list (list refcnt_op)) :
  rtc (step image) c c' ->
  forall i : aeron_image_t,
    images (fst c) !! image = Some i ->
    Int64.in_range (refcnt i) ->
    exists i' : aeron_image_t,
      images (fst c') !! image = Some i' /\
      Int64.in_range (refcnt i') /\
      Int64.wrap (refcnt i' + total_calls op_incr (snd c')
                  - total_calls op_decr (snd c'))
      = Int64.wrap (refcnt i + total_calls op_incr (snd c)
                    - total_calls op_decr (snd c)).
Proof.
  induction 1 as [c | [w ths] [w1 ths1] c' Hs _ IH]; intros i Hi Hr.
  - exists i. auto.
  - cbn in Hi.
    destruct (step_inv image w w1 ths ths1 i Hi Hs)
      as (tid & op & rest & Hl & -> & ->).
    destruct (IH (set_refcnt
                    (Int64.add (refcnt i) (if is_op op_incr op then 1 else -1))
                    i))
      as (i' & Hi' & Hr' & Heq).
    { apply with_refcnt_lookup. }
    { apply wrap_range. }
    exists i'. split; [exact Hi'|]. split; [exact Hr'|].
    rewrite Heq. cbn [fst snd refcnt set_refcnt]. unfold total_calls.
    rewrite !(total_insert _ ths tid (op :: rest) rest Hl).
    unfold Int64.add. destruct op; cbn [is_op calls].
    + rewrite <- Z.add_sub_assoc, wrap_add_l. f_equal. lia.
    + rewrite <- Z.add_sub_assoc, wrap_add_l. f_equal. lia.
Qed.

(** While every thread keeps the contract the count covers what the threads
    still have to give back, and it stays below [bound]. *)
Lemma steps_covered (image : N) (bound : Z)
    (c c' : world * list (list refcnt_op)) :
  bound <= Int64.max_signed ->
  rtc (step image) c c' ->
  forall i : aeron_image_t,
    images (fst c) !! image = Some i ->
    total deficit (snd c) <= refcnt i ->
    refcnt i + total_calls op_incr (snd c) <= bound ->
    exists i' : aeron_image_t,
      images (fst c') !! image = Some i' /\
      total deficit (snd c') <= refcnt i' /\
      refcnt i' + total_calls op_incr (snd c') <= bound.
Proof.
  intros Hb.
  induction 1 as [c | [w ths] [w1 ths1] c' Hs _ IH]; intros i Hi Hd Hu.
  - exists i. auto.
  - cbn [fst snd] in *.
    destruct (step_inv image w w1 ths ths1 i Hi Hs)
      as (tid & op & rest & Hl & -> & ->).
    pose proof (total_lookup_le deficit ths tid _ deficit_nonneg Hl) as Hdl.
    pose proof (total_lookup_le (calls op_incr) ths tid _
                  (calls_nonneg op_incr) Hl) as Hcl.
    pose proof (total_nonneg deficit ths deficit_nonneg) as Hd0.
    pose proof (total_nonneg (calls op_incr) ths (calls_nonneg op_incr)) as Hc0.
    pose proof (deficit_nonneg rest) as Hdr.
    pose proof (calls_nonneg op_incr rest) as Hcr.
    apply (IH (set_refcnt
                 (Int64.add (refcnt i) (if is_op op_incr op then 1 else -1))
                 i)).
    + apply with_refcnt_lookup.
    + cbn [refcnt set_refcnt]. rewrite (total_insert _ ths tid _ rest Hl).
      unfold Int64.add, total_calls in *.
      destruct op; cbn [is_op calls deficit] in *;
        (rewrite wrap_in_range;
         [|unfold Int64.in_range, Int64.min_signed, Int64.max_signed in *]);
        lia.
    + cbn [refcnt set_refcnt]. unfold total_calls in *.
      rewrite (total_insert _ ths tid _ rest Hl).
      unfold Int64.add.
      destruct op; cbn [is_op calls deficit] in *;
        (rewrite wrap_in_range;
         [|unfold Int64.in_range, Int64.min_signed, Int64.max_signed in *]);
        lia.
Qed.

Lemma finished_or_next (threads : list (list refcnt_op)) :
  finished threads \/
  exists (tid : nat) (op : refcnt_op) (rest : list refcnt_op),
    threads !! tid = Some (op :: rest).
Proof.
  induction threads as [|[|op rest] ps IH].
  - left. constructor.
  - destruct IH as [Hf | (tid & op & rest & Hl)].
    + left. constructor; [reflexivity|exact Hf].
    + right. exists (S tid), op, rest. exact Hl.
  - right. exists 0%nat, op, rest. reflexivity.
Qed.

(** Every configuration whose image is in the store runs to the end. *)
Lemma steps_finish (image : N) (n : nat) :
  forall (w : world) (threads : list (list refcnt_op)) (i : aeron_image_t),
    images w !! image = Some i ->
    total pending threads <= Z.of_nat n ->
    exists (w' : world) (threads' : list (list refcnt_op)),
      rtc (step image) (w, threads) (w', threads') /\ finished threads'.
Proof.
  induction n as [|n IH]; intros w ths i Hi Hn;
    destruct (finished_or_next ths) as [Hf | (tid & op & rest & Hl)];
    try (exists w, ths; split; [apply rtc_refl|exact Hf]).
  - pose proof (total_lookup_le pending ths tid _ pending_nonneg Hl) as Hp.
    rewrite pending_cons in Hp. pose proof (pending_nonneg rest). lia.
  - destruct (IH (with_refcnt image i
                    (Int64.add (refcnt i) (if is_op op_incr op then 1 else -1))
                    w)
                 (<[tid := rest]> ths)
                 (set_refcnt
                    (Int64.add (refcnt i) (if is_op op_incr op then 1 else -1))
                    i))
      as (w' & ths' & Hrun & Hf).
    + apply with_refcnt_lookup.
    + rewrite (total_insert _ ths tid _ rest Hl).
      rewrite pending_cons. lia.
    + exists w', ths'. split; [|exact Hf].
      eapply rtc_l; [|exact Hrun].
      eapply step_thread; [exact Hl|]. apply run_op_eq. exact Hi.
Qed.

(** C2, under the caller's contract: from a count of 0, every interleaving of the threads' calls
    can be run to the end; once all [N] increments and [M] decrements are
    made the count read by [aeron_image_refcnt_volatile] is [N - M] (an
    [int64_t]); and at every point of the run the count read is not
    negative provided each thread only gives back references it took
    before ([releases_held]). *)
Theorem refcnt_concurrent (w : world) (image : N) (i : aeron_image_t)
    (threads : list (list refcnt_op)) :
  images w !! image = Some i ->
  refcnt i = 0 ->
  let N := total_calls op_incr threads in
  let M := total_calls op_decr threads in
  (exists (w' : world) (threads' : list (list refcnt_op)),
     rtc (step image) (w, threads) (w', threads') /\ finished threads') /\
  (forall (w' : world) (threads' : list (list refcnt_op)),
     rtc (step image) (w, threads) (w', threads') ->
     (finished threads' -> Int64.in_range (N - M) ->
      aeron_image_refcnt_volatile image w' = Some (N - M, w')) /\
     (Forall (fun prog => releases_held 0 prog = true) threads ->
      N <= Int64.max_signed ->
      exists v : Z,
        aeron_image_refcnt_volatile image w' = Some (v, w') /\ 0 <= v)).
Proof.
  intros Hi H0 N M. split.
  - apply (steps_finish image (Z.to_nat (total pending threads)) w threads i Hi).
    pose proof (total_nonneg pending threads pending_nonneg). lia.
  - intros w' threads' Hrun. split.
    + intros Hf HNM.
      destruct (steps_balance image _ _ Hrun i Hi) as (i' & Hi' & Hr' & Heq).
      { rewrite H0. unfold Int64.in_range, Int64.min_signed, Int64.max_signed.
        lia. }
      cbn [fst snd] in *. unfold total_calls in Heq.
      rewrite !(total_finished _ threads') in Heq by (reflexivity || exact Hf).
      rewrite H0 in Heq. fold (total_calls op_incr threads) in Heq.
      fold (total_calls op_decr threads) in Heq. fold N M in Heq.
      rewrite Z.add_0_r, Z.sub_0_r, Z.add_0_l in Heq.
      rewrite (wrap_in_range _ Hr'), (wrap_in_range _ HNM) in Heq.
      rewrite (refcnt_volatile_eq w' image i' Hi'), Heq. reflexivity.
    + intros Hc HN.
      destruct (steps_covered image N _ _ HN Hrun i Hi) as (i' & Hi' & Hd & _).
      { cbn [snd]. rewrite (total_deficit_contract threads Hc), H0. lia. }
      { cbn [snd]. rewrite H0. unfold N. lia. }
      exists (refcnt i'). split; [apply refcnt_volatile_eq; exact Hi'|].
      pose proof (total_nonneg deficit threads' deficit_nonneg).
      cbn [snd] in Hd. lia.
Qed.

(** ** Further properties of the removal bookkeeping *)

(** X1: the answer of [aeron_image_is_in_use_by_subcription] is a threshold
    on the change number at the value [aeron_image_removal_change_number]
    returns: in use at [n] means in use at every smaller change number, the
    image is not in use at its own removal change number and is in use just
    below it.  Neither call changes the store. *)
Theorem is_in_use_threshold (w : world) (image : N) (i : aeron_image_t) :
  images w !! image = Some i ->
  exists rcn : Z,
    aeron_image_removal_change_number image w = Some (rcn, w) /\
    (forall n : Z,
       aeron_image_is_in_use_by_subcription image n w
       = Some (rcn >? n, w)) /\
    (forall n n' : Z,
       n' <= n ->
       aeron_image_is_in_use_by_subcription image n w = Some (true, w) ->
       aeron_image_is_in_use_by_subcription image n' w = Some (true, w)) /\
    aeron_image_is_in_use_by_subcription image rcn w = Some (false, w) /\
    aeron_image_is_in_use_by_subcription image (rcn - 1) w = Some (true, w).
Proof.
  intros Hi. exists (removal_change_number i).
  assert (Hrun : forall n, aeron_image_is_in_use_by_subcription image n w
                           = Some (removal_change_number i >? n, w)).
  { intros n.
    unfold aeron_image_is_in_use_by_subcription, bind, load_image, ret.
    rewrite Hi. reflexivity. }
  split.
  { unfold aeron_image_removal_change_number, bind, load_image, ret.
    rewrite Hi. reflexivity. }
  split; [exact Hrun|]. split; [|split].
  - intros n n' Hle. rewrite !Hrun. intros Hn. injection Hn as Hn.
    apply Z.gtb_gt in Hn. do 2 f_equal. apply Z.gtb_gt. lia.
  - rewrite Hrun. do 2 f_equal. apply not_true_is_false.
    rewrite Z.gtb_gt. lia.
  - rewrite Hrun. do 2 f_equal. apply Z.gtb_gt. lia.
Qed.

(** ** Further properties of position validation *)

(** X2: [aeron_image_validate_position] returns 0 only for a position of
    [[current, limit]] that is a multiple of the frame alignment, and then
    the store is the one it was called on. *)
Theorem validate_position_accepts_iff (w w' : world) (image : N)
    (i : aeron_image_t) (current position k : Z) :
  images w !! image = Some i ->
  cells w !! subscriber_position i = Some current ->
  0 <= k ->
  AERON_LOGBUFFER_FRAME_ALIGNMENT = 2 ^ k ->
  let limit := limit_of current (term_length_mask i) in
  aeron_image_validate_position image position w = Some (0, w') <->
  w' = w /\ current <= position <= limit /\
  (AERON_LOGBUFFER_FRAME_ALIGNMENT | position).
Proof.
  intros Hi Hc Hk Ha limit.
  rewrite (validate_position_eq w image i current position Hi Hc).
  cbn zeta. fold limit.
  destruct ((position <? current) || (position >? limit)) eqn:Hr.
  - apply range_test in Hr. split; [discriminate|]. lia.
  - assert (Hin : current <= position <= limit).
    { destruct (Z.ltb_spec position current), (Z.gtb_spec position limit);
        cbn in Hr; try discriminate; lia. }
    destruct (0 =? Z.land position (AERON_LOGBUFFER_FRAME_ALIGNMENT - 1))
      eqn:Hal; cbn [negb].
    + rewrite Ha in *. apply aligned_iff in Hal; [|assumption].
      split; [intros [= <-]; auto|]. intros (-> & _). reflexivity.
    + split; [discriminate|]. intros (_ & _ & Hdiv). exfalso.
      rewrite Ha in *. apply aligned_iff in Hdiv; [|assumption]. congruence.
Qed.

Lemma next_term_above (current t : Z) :
  0 <= t ->
  current < (current / 2 ^ t + 1) * 2 ^ t <= current + 2 ^ t.
Proof.
  intros Ht.
  assert (HL : 0 < 2 ^ t) by (apply Z.pow_pos_nonneg; lia).
  pose proof (Z.mod_pos_bound current (2 ^ t) HL).
  pose proof (Z.div_mod current (2 ^ t) ltac:(lia)). nia.
Qed.

Lemma next_term_mono (current current' t : Z) :
  0 <= t -> current <= current' ->
  (current / 2 ^ t + 1) * 2 ^ t <= (current' / 2 ^ t + 1) * 2 ^ t.
Proof.
  intros Ht Hle.
  assert (HL : 0 < 2 ^ t) by (apply Z.pow_pos_nonneg; lia).
  pose proof (Z.div_le_mono current current' (2 ^ t) HL Hle). nia.
Qed.

(** X3: for an image whose mask is that of a term length [2^t] and whose
    limit does not overflow, a position that is accepted is at or after the
    subscriber position, at most one term length after it, and not beyond
    the start of the next term. *)
Theorem validate_position_accepted_window (w w' : world) (image : N)
    (i : aeron_image_t) (current position t : Z) :
  images w !! image = Some i ->
  cells w !! subscriber_position i = Some current ->
  0 <= t <= 62 ->
  term_length_mask i = 2 ^ t - 1 ->
  Int64.in_range current ->
  (current / 2 ^ t + 1) * 2 ^ t <= Int64.max_signed ->
  aeron_image_validate_position image position w = Some (0, w') ->
  current <= position <= (current / 2 ^ t + 1) * 2 ^ t /\
  position - current <= 2 ^ t.
Proof.
  intros Hi Hc Ht Hm Hcur Hmax.
  rewrite (validate_position_eq w image i current position Hi Hc).
  cbn zeta. rewrite Hm, (limit_of_next_term current t Ht Hcur Hmax).
  pose proof (next_term_above current t ltac:(lia)) as Hnext.
  destruct (_ || _) eqn:Hr; [discriminate|]. intros _.
  destruct (Z.ltb_spec position current),
    (Z.gtb_spec position ((current / 2 ^ t + 1) * 2 ^ t));
    cbn in Hr; try discriminate; lia.
Qed.

(** X4: the return value of [aeron_image_validate_position] does not depend
    on [errno] or on the error recorded before: after any call, validating
    the same position again returns the same value and store, and
    validating any position returns what it returns on the first store. *)
Theorem validate_position_repeat (w w1 : world) (image : N)
    (i : aeron_image_t) (current position r1 : Z) :
  images w !! image = Some i ->
  cells w !! subscriber_position i = Some current ->
  aeron_image_validate_position image position w = Some (r1, w1) ->
  aeron_image_validate_position image position w1 = Some (r1, w1) /\
  (forall q : Z,
     exists (r : Z) (w2 w2' : world),
       aeron_image_validate_position image q w = Some (r, w2) /\
       aeron_image_validate_position image q w1 = Some (r, w2')).
Proof.
  intros Hi Hc Hrun.
  assert (Hw1 : images w1 = images w /\ cells w1 = cells w).
  { rewrite (validate_position_eq w image i current position Hi Hc) in Hrun.
    cbn zeta in Hrun. destruct (_ || _) in Hrun;
      [|destruct (negb _) in Hrun]; injection Hrun as _ <-; auto. }
  destruct Hw1 as [Hims Hcs].
  assert (Hi1 : images w1 !! image = Some i) by (rewrite Hims; exact Hi).
  assert (Hc1 : cells w1 !! subscriber_position i = Some current)
    by (rewrite Hcs; exact Hc).
  split.
  - rewrite (validate_position_eq w image i current position Hi Hc) in Hrun.
    rewrite (validate_position_eq w1 image i current position Hi1 Hc1).
    cbn zeta in *. destruct (_ || _);
      [|destruct (negb _)]; injection Hrun as <- <-; reflexivity.
  - intros q.
    rewrite (validate_position_eq w image i current q Hi Hc).
    rewrite (validate_position_eq w1 image i current q Hi1 Hc1).
    cbn zeta. destruct (_ || _); [|destruct (negb _)]; eauto.
Qed.

(** X5: an accepted position stays accepted while the subscriber position
    advances towards it.  [w'] is a store with the same image and a
    subscriber position [current'] between [current] and the position. *)
Theorem validate_position_advance (w w' : world) (image : N)
    (i : aeron_image_t) (current current' position t : Z) :
  images w !! image = Some i ->
  cells w !! subscriber_position i = Some current ->
  images w' !! image = Some i ->
  cells w' !! subscriber_position i = Some current' ->
  0 <= t <= 62 ->
  term_length_mask i = 2 ^ t - 1 ->
  Int64.in_range current ->
  Int64.in_range current' ->
  (current' / 2 ^ t + 1) * 2 ^ t <= Int64.max_signed ->
  current <= current' <= position ->
  aeron_image_validate_position image position w = Some (0, w) ->
  aeron_image_validate_position image position w' = Some (0, w').
Proof.
  intros Hi Hc Hi' Hc' Ht Hm Hcur Hcur' Hmax Hadv Hacc.
  pose proof (next_term_mono current current' t ltac:(lia) ltac:(lia)) as Hmono.
  rewrite (validate_position_eq w image i current position Hi Hc) in Hacc.
  rewrite (validate_position_eq w' image i current' position Hi' Hc').
  cbn zeta in *. rewrite Hm in *.
  rewrite (limit_of_next_term current t Ht Hcur ltac:(lia)) in Hacc.
  rewrite (limit_of_next_term current' t Ht Hcur' Hmax).
  destruct ((position <? current) || _) eqn:Hr in Hacc; [discriminate|].
  assert (Hin : position <= (current / 2 ^ t + 1) * 2 ^ t).
  { destruct (Z.ltb_spec position current),
      (Z.gtb_spec position ((current / 2 ^ t + 1) * 2 ^ t));
      cbn in Hr; try discriminate; lia. }
  destruct (negb _); [discriminate|].
  destruct ((position <? current') || _) eqn:Hr'; [|reflexivity].
  apply range_test in Hr'. lia.
Qed.

(** X10: when the frame alignment divides the term length, the limit itself
    (the start of the next term) is accepted, and so is the subscriber
    position when it is frame aligned. *)
Theorem validate_position_endpoints (w : world) (image : N)
    (i : aeron_image_t) (current k t : Z) :
  images w !! image = Some i ->
  cells w !! subscriber_position i = Some current ->
  0 <= k <= t ->
  AERON_LOGBUFFER_FRAME_ALIGNMENT = 2 ^ k ->
  t <= 62 ->
  term_length_mask i = 2 ^ t - 1 ->
  Int64.in_range current ->
  (current / 2 ^ t + 1) * 2 ^ t <= Int64.max_signed ->
  aeron_image_validate_position image ((current / 2 ^ t + 1) * 2 ^ t) w
  = Some (0, w) /\
  ((AERON_LOGBUFFER_FRAME_ALIGNMENT | current) ->
   aeron_image_validate_position image current w = Some (0, w)).
Proof.
  intros Hi Hc Hk Ha Ht Hm Hcur Hmax.
  pose proof (next_term_above current t ltac:(lia)) as Hnext.
  assert (Hrun := fun p => validate_position_eq w image i current p Hi Hc).
  cbn zeta in Hrun. rewrite Hm in Hrun.
  rewrite (limit_of_next_term current t ltac:(lia) Hcur Hmax) in Hrun.
  rewrite Ha in *.
  assert (Hacc : forall p,
            current <= p <= (current / 2 ^ t + 1) * 2 ^ t ->
            (2 ^ k | p) ->
            aeron_image_validate_position image p w = Some (0, w)).
  { intros p Hin Hdiv. rewrite Hrun.
    destruct (_ || _) eqn:Hr; [apply range_test in Hr; lia|].
    apply aligned_iff in Hdiv; [|lia]. rewrite Hdiv. reflexivity. }
  split.
  - apply Hacc; [lia|].
    exists ((current / 2 ^ t + 1) * 2 ^ (t - k)).
    rewrite <- Z.mul_assoc, <- Z.pow_add_r by lia. do 2 f_equal. lia.
  - intros Hdiv. apply Hacc; [lia|exact Hdiv].
Qed.

(** ** Further properties of the reference count *)

(** X6: [aeron_image_decr_refcnt] followed by [aeron_image_incr_refcnt] on
    the same image restores the store, and the increment returns one less
    than the decrement returned (the count being above [INT64_MIN]). *)
Theorem decr_incr_roundtrip (w : world) (image : N) (i : aeron_image_t) :
  images w !! image = Some i ->
  Int64.in_range (refcnt i) ->
  exists (a b : Z) (w1 : world),
    aeron_image_decr_refcnt image w = Some (a, w1) /\
    aeron_image_incr_refcnt image w1 = Some (b, w) /\
    a = refcnt i /\
    (Int64.min_signed < refcnt i -> b = a - 1).
Proof.
  intros Hi Hr.
  exists (refcnt i), (Int64.add (refcnt i) (-1)),
    (with_refcnt image i (Int64.add (refcnt i) (-1)) w).
  split; [|split; [|split]].
  - unfold aeron_image_decr_refcnt, bind.
    rewrite (get_and_add_eq w image i (-1) Hi). reflexivity.
  - unfold aeron_image_incr_refcnt, bind.
    rewrite (get_and_add_eq _ image
               (set_refcnt (Int64.add (refcnt i) (-1)) i) 1)
      by apply with_refcnt_lookup.
    cbn [refcnt set_refcnt].
    assert (Hback : Int64.add (Int64.add (refcnt i) (-1)) 1 = refcnt i).
    { unfold Int64.add. rewrite wrap_add_l.
      replace (refcnt i + -1 + 1) with (refcnt i) by lia.
      apply wrap_in_range. exact Hr. }
    rewrite Hback, with_refcnt_restore by exact Hi. reflexivity.
  - reflexivity.
  - intros Hmin. unfold Int64.add.
    replace (refcnt i + -1) with (refcnt i - 1) by lia.
    apply wrap_in_range.
    unfold Int64.in_range, Int64.min_signed, Int64.max_signed in *. lia.
Qed.

Lemma removal_change_number_eq (w : world) (image : N) (i : aeron_image_t) :
  images w !! image = Some i ->
  aeron_image_removal_change_number image w
  = Some (removal_change_number i, w).
Proof.
  intros Hi. unfold aeron_image_removal_change_number, bind, load_image, ret.
  rewrite Hi. reflexivity.
Qed.

Lemma is_in_use_eq (w : world) (image : N) (i : aeron_image_t) (n : Z) :
  images w !! image = Some i ->
  aeron_image_is_in_use_by_subcription image n w
  = Some (removal_change_number i >? n, w).
Proof.
  intros Hi.
  unfold aeron_image_is_in_use_by_subcription, bind, load_image, ret.
  rewrite Hi. reflexivity.
Qed.

(** X7: a call of [aeron_image_incr_refcnt] or [aeron_image_decr_refcnt]
    touches nothing the other functions of the header read: after it the
    removal change number and the answers of
    [aeron_image_is_in_use_by_subcription] are the same, every position
    cell is the same, and [aeron_image_validate_position] returns the same
    value for every position. *)
Theorem refcnt_ops_frame (w w1 : world) (image : N) (i : aeron_image_t)
    (current r : Z) (op : refcnt_op) :
  images w !! image = Some i ->
  cells w !! subscriber_position i = Some current ->
  run_op image op w = Some (r, w1) ->
  cells w1 = cells w /\
  aeron_image_removal_change_number image w1
  = Some (removal_change_number i, w1) /\
  (forall n : Z,
     aeron_image_is_in_use_by_subcription image n w1
     = Some (removal_change_number i >? n, w1)) /\
  (forall q : Z,
     exists (code : Z) (w2 w2' : world),
       aeron_image_validate_position image q w = Some (code, w2) /\
       aeron_image_validate_position image q w1 = Some (code, w2')).
Proof.
  intros Hi Hc Hrun. rewrite (run_op_eq w image i op Hi) in Hrun.
  set (v := Int64.add (refcnt i) (if is_op op_incr op then 1 else -1)) in *.
  assert (Hw1 : w1 = with_refcnt image i v w) by congruence. subst w1.
  assert (Hi1 : images (with_refcnt image i v w) !! image
                = Some (set_refcnt v i)) by apply with_refcnt_lookup.
  split; [reflexivity|]. split; [|split].
  - exact (removal_change_number_eq _ image _ Hi1).
  - intros n. exact (is_in_use_eq _ image _ n Hi1).
  - intros q.
    rewrite (validate_position_eq w image i current q Hi Hc).
    rewrite (validate_position_eq _ image (set_refcnt v i) current q Hi1 Hc).
    cbn [term_length_mask set_refcnt]. cbn zeta.
    destruct (_ || _); [|destruct (negb _)]; eauto.
Qed.

Lemma releases_held_calls (prog : list refcnt_op) (held : Z) :
  0 <= held ->
  releases_held held prog = true ->
  calls op_decr prog <= held + calls op_incr prog.
Proof.
  revert held. induction prog as [|[] rest IH]; intros held Hh Hr; cbn in *.
  - lia.
  - specialize (IH (held + 1) ltac:(lia) Hr). lia.
  - apply andb_true_iff in Hr as [Hpos Hr]. apply Z.ltb_lt in Hpos.
    specialize (IH (held - 1) ltac:(lia) Hr). lia.
Qed.

Lemma total_calls_contract (threads : list (list refcnt_op)) :
  Forall (fun prog => releases_held 0 prog = true) threads ->
  total_calls op_decr threads <= total_calls op_incr threads.
Proof.
  unfold total_calls. induction 1 as [|p ps Hp _ IH]; cbn; [lia|].
  pose proof (releases_held_calls p 0 ltac:(lia) Hp). lia.
Qed.

(** The calls yet to be made only go down along a run. *)
Lemma steps_calls_le (image : N) (op : refcnt_op)
    (c c' : world * list (list refcnt_op)) :
  rtc (step image) c c' ->
  total_calls op (snd c') <= total_calls op (snd c).
Proof.
  induction 1 as [c | c c1 c' Hs _ IH]; [lia|].
  etransitivity; [exact IH|].
  inversion Hs as [w w1 ths tid o rest result Hl Hrun]; subst. cbn [snd].
  unfold total_calls. rewrite (total_insert _ ths tid _ rest Hl).
  cbn [calls]. destruct (is_op op o); lia.
Qed.

(** X8: while every thread keeps the caller's contract, the count read at
    any point of any interleaving is the number of increments made so far
    minus the number of decrements made so far; it is never negative and
    never more than the increments made. *)
Theorem refcnt_counts_calls_made (w w' : world) (image : N)
    (i : aeron_image_t) (threads threads' : list (list refcnt_op)) :
  images w !! image = Some i ->
  refcnt i = 0 ->
  Forall (fun prog => releases_held 0 prog = true) threads ->
  total_calls op_incr threads <= Int64.max_signed ->
  rtc (step image) (w, threads) (w', threads') ->
  let incrs_made :=
    total_calls op_incr threads - total_calls op_incr threads' in
  let decrs_made :=
    total_calls op_decr threads - total_calls op_decr threads' in
  exists v : Z,
    aeron_image_refcnt_volatile image w' = Some (v, w') /\
    v = incrs_made - decrs_made /\
    0 <= v <= incrs_made.
Proof.
  intros Hi H0 Hc HN Hrun incrs_made decrs_made.
  destruct (steps_covered image _ _ _ HN Hrun i Hi) as (i' & Hi' & Hd & Hu).
  { cbn [snd]. rewrite (total_deficit_contract threads Hc), H0. lia. }
  { cbn [snd]. rewrite H0. lia. }
  destruct (steps_balance image _ _ Hrun i Hi) as (i2 & Hi2 & Hr2 & Heq).
  { rewrite H0. unfold Int64.in_range, Int64.min_signed, Int64.max_signed.
    lia. }
  cbn [fst snd] in *. rewrite Hi' in Hi2. injection Hi2 as <-.
  pose proof (total_nonneg deficit threads' deficit_nonneg) as Hd0.
  pose proof (total_calls_contract threads Hc) as HMN.
  pose proof (steps_calls_le image op_decr _ _ Hrun) as HM'.
  pose proof (steps_calls_le image op_incr _ _ Hrun) as HN'.
  cbn [snd] in HM', HN'.
  pose proof (total_nonneg (calls op_decr) threads' (calls_nonneg op_decr))
    as HM0.
  pose proof (total_nonneg (calls op_incr) threads' (calls_nonneg op_incr))
    as HN0.
  fold (total_calls op_decr threads') in HM0.
  fold (total_calls op_incr threads') in HN0.
  rewrite H0 in Heq.
  rewrite !wrap_in_range in Heq
    by (unfold Int64.in_range, Int64.min_signed, Int64.max_signed in *; lia).
  exists (refcnt i'). split; [apply refcnt_volatile_eq; exact Hi'|].
  subst incrs_made decrs_made. lia.
Qed.

(** A thread that breaks the contract, run on its own, drives the count
    below zero. *)
Lemma run_to_negative (image : N) (prog : list refcnt_op) :
  forall (tid : nat) (threads : list (list refcnt_op)) (w : world)
         (i : aeron_image_t),
    images w !! image = Some i ->
    0 <= refcnt i ->
    refcnt i + calls op_incr prog <= Int64.max_signed ->
    threads !! tid = Some prog ->
    releases_held (refcnt i) prog = false ->
    exists (w' : world) (rest : list refcnt_op) (i' : aeron_image_t),
      rtc (step image) (w, threads) (w', <[tid := rest]> threads) /\
      images w' !! image = Some i' /\ refcnt i' < 0.
Proof.
  induction prog as [|op rest IH]; intros tid ths w i Hi Hh Hmax Hl Hr;
    [discriminate|].
  pose proof (calls_nonneg op_incr rest) as Hc0.
  assert (Hlen : (tid < length ths)%nat) by (eapply lookup_lt_Some; exact Hl).
  set (v := Int64.add (refcnt i) (if is_op op_incr op then 1 else -1)).
  assert (Hstep : step image (w, ths)
                    (with_refcnt image i v w, <[tid := rest]> ths)).
  { eapply step_thread; [exact Hl|]. apply run_op_eq. exact Hi. }
  assert (Hi1 : images (with_refcnt image i v w) !! image
                = Some (set_refcnt v i)) by apply with_refcnt_lookup.
  assert (Hv : v = refcnt i + (if is_op op_incr op then 1 else -1)).
  { subst v. unfold Int64.add. apply wrap_in_range.
    unfold Int64.in_range, Int64.min_signed, Int64.max_signed in *.
    destruct op; cbn [is_op calls] in *; lia. }
  destruct op; cbn [is_op calls releases_held] in *.
  - destruct (IH tid (<[tid := rest]> ths) (with_refcnt image i v w)
                (set_refcnt v i))
      as (w' & rest' & i' & Hrun & Hi' & Hneg).
    + exact Hi1.
    + cbn [refcnt set_refcnt]. lia.
    + cbn [refcnt set_refcnt]. lia.
    + apply list_lookup_insert_eq. exact Hlen.
    + cbn [refcnt set_refcnt]. rewrite Hv. exact Hr.
    + rewrite list_insert_insert_eq in Hrun.
      exists w', rest', i'. split; [|auto].
      eapply rtc_l; [exact Hstep|exact Hrun].
  - destruct (Z.ltb_spec 0 (refcnt i)) as [Hpos|Hzero]; cbn [andb] in Hr.
    + destruct (IH tid (<[tid := rest]> ths) (with_refcnt image i v w)
                  (set_refcnt v i))
        as (w' & rest' & i' & Hrun & Hi' & Hneg).
      * exact Hi1.
      * cbn [refcnt set_refcnt]. lia.
      * cbn [refcnt set_refcnt]. lia.
      * apply list_lookup_insert_eq. exact Hlen.
      * cbn [refcnt set_refcnt]. rewrite Hv.
        replace (refcnt i + -1) with (refcnt i - 1) by lia. exact Hr.
      * rewrite list_insert_insert_eq in Hrun.
        exists w', rest', i'. split; [|auto].
        eapply rtc_l; [exact Hstep|exact Hrun].
    + exists (with_refcnt image i v w), rest, (set_refcnt v i).
      split; [apply rtc_once; exact Hstep|]. split; [exact Hi1|].
      cbn [refcnt set_refcnt]. lia.
Qed.

(** X9: the caller's contract is needed.  If some thread gives back a
    reference it does not hold, then from a count of 0 there is an
    interleaving (that thread runs first) in which
    [aeron_image_refcnt_volatile] reads a negative count. *)
Theorem refcnt_contract_needed (w : world) (image : N) (i : aeron_image_t)
    (threads : list (list refcnt_op)) (tid : nat) (prog : list refcnt_op) :
  images w !! image = Some i ->
  refcnt i = 0 ->
  threads !! tid = Some prog ->
  calls op_incr prog <= Int64.max_signed ->
  releases_held 0 prog = false ->
  exists (w' : world) (threads' : list (list refcnt_op)) (v : Z),
    rtc (step image) (w, threads) (w', threads') /\
    aeron_image_refcnt_volatile image w' = Some (v, w') /\
    v < 0.
Proof.
  intros Hi H0 Hl Hmax Hr.
  destruct (run_to_negative image prog tid threads w i Hi)
    as (w' & rest & i' & Hrun & Hi' & Hneg); try (rewrite H0; auto; lia).
  - exact Hl.
  - exists w', (<[tid := rest]> threads), (refcnt i').
    split; [exact Hrun|]. split; [|exact Hneg].
    apply refcnt_volatile_eq. exact Hi'.
Qed.

End Image.

(** ** The theorems at a concrete store *)

Lemma is_in_use_by_subcription_iff_witness :
  exists b : bool,
    aeron_image_is_in_use_by_subcription 5%N 4
      (world_with (image_with tt 65535 0 5 false) 0)
    = Some (b, world_with (image_with tt 65535 0 5 false) 0) /\
    (b = true <-> 5 > 4) /\ (4 >= 5 -> b = false).
Proof.
  apply (is_in_use_by_subcription_iff
           (world_with (image_with tt 65535 0 5 false) 0) 5%N
           (image_with tt 65535 0 5 false) 4).
  reflexivity.
Defined.

Lemma validate_position_range_witness :
  aeron_image_validate_position 32 5%N 65536
    (world_with (image_with tt 65535 0 0 false) 0)
  = Some (0, world_with (image_with tt 65535 0 0 false) 0).
Proof.
  refine (proj1 (proj2
            (validate_position_range 32
               (world_with (image_with tt 65535 0 0 false) 0) 5%N
               (image_with tt 65535 0 0 false) 0 65536 5
               eq_refl eq_refl _ eq_refl)) _ _).
  - lia.
  - vm_compute. split; discriminate.
  - exists 2048. reflexivity.
Defined.

Lemma validate_position_limit_inclusive_witness :
  131072 = (65600 / 2 ^ 16 + 1) * 2 ^ 16 /\
  aeron_image_validate_position 32 5%N 131072
    (world_with (image_with tt 65535 0 0 false) 65600)
  = Some (0, world_with (image_with tt 65535 0 0 false) 65600).
Proof.
  refine (validate_position_limit_inclusive 32
            (world_with (image_with tt 65535 0 0 false) 65600) 5%N
            (image_with tt 65535 0 0 false) 65600 131072 5 16
            eq_refl eq_refl _ eq_refl _ eq_refl _ _ eq_refl _).
  - lia.
  - lia.
  - vm_compute. split; discriminate.
  - vm_compute. discriminate.
  - exists 4096. reflexivity.
Defined.

Lemma validate_position_misaligned_witness :
  fails_with
    (aeron_image_validate_position 32 5%N 31
       (world_with (image_with tt 65535 0 0 false) 0))
    MisalignedPosition.
Proof.
  refine (proj1
            (validate_position_misaligned 32
               (world_with (image_with tt 65535 0 0 false) 0) 5%N
               (image_with tt 65535 0 0 false) 0 31 5
               eq_refl eq_refl _ eq_refl _) _).
  - lia.
  - intros [q Hq]. lia.
  - vm_compute. split; discriminate.
Defined.

Lemma validate_position_read_only_witness :
  exists (r : Z) (w' : world),
    aeron_image_validate_position 32 5%N 65568
      (world_with (image_with tt 65535 0 0 false) 0) = Some (r, w') /\
    (r = 0 \/ r = -1) /\
    images w' = images (world_with (image_with tt 65535 0 0 false) 0) /\
    cells w' = cells (world_with (image_with tt 65535 0 0 false) 0) /\
    images w' !! 5%N = Some (image_with tt 65535 0 0 false) /\
    cells w' !! 7%N = Some 0.
Proof.
  apply (validate_position_read_only 32
           (world_with (image_with tt 65535 0 0 false) 0) 5%N
           (image_with tt 65535 0 0 false) 0 65568); reflexivity.
Defined.

Lemma incr_refcnt_spec_witness :
  exists w' : world,
    aeron_image_incr_refcnt 5%N
      (world_with (image_with tt 65535 2 0 false) 0) = Some (2, w') /\
    w' = with_refcnt 5%N (image_with tt 65535 2 0 false) (2 + 1)
           (world_with (image_with tt 65535 2 0 false) 0) /\
    aeron_image_refcnt_volatile 5%N w' = Some (2 + 1, w').
Proof.
  apply (incr_refcnt_spec (world_with (image_with tt 65535 2 0 false) 0) 5%N
           (image_with tt 65535 2 0 false)).
  - reflexivity.
  - vm_compute. split; discriminate.
  - vm_compute. reflexivity.
Defined.

Lemma decr_refcnt_spec_witness :
  exists w' : world,
    aeron_image_decr_refcnt 5%N
      (world_with (image_with tt 65535 0 0 false) 0) = Some (0, w') /\
    w' = with_refcnt 5%N (image_with tt 65535 0 0 false) (0 - 1)
           (world_with (image_with tt 65535 0 0 false) 0) /\
    aeron_image_refcnt_volatile 5%N w' = Some (0 - 1, w') /\
    (0 = 0 ->
     aeron_image_decr_refcnt 5%N
       (world_with (image_with tt 65535 0 0 false) 0) = Some (0, w') /\
     aeron_image_refcnt_volatile 5%N w' = Some (-1, w')).
Proof.
  apply (decr_refcnt_spec (world_with (image_with tt 65535 0 0 false) 0) 5%N
           (image_with tt 65535 0 0 false)).
  - reflexivity.
  - vm_compute. split; discriminate.
  - vm_compute. reflexivity.
Defined.

Lemma incr_decr_roundtrip_witness :
  exists (a b : Z) (w1 : world),
    aeron_image_incr_refcnt 5%N
      (world_with (image_with tt 65535 3 0 false) 0) = Some (a, w1) /\
    aeron_image_decr_refcnt 5%N w1
    = Some (b, world_with (image_with tt 65535 3 0 false) 0) /\
    a = 3 /\
    aeron_image_refcnt_volatile 5%N
      (world_with (image_with tt 65535 3 0 false) 0)
    = Some (3, world_with (image_with tt 65535 3 0 false) 0) /\
    (3 < Int64.max_signed -> b = a + 1).
Proof.
  apply (incr_decr_roundtrip (world_with (image_with tt 65535 3 0 false) 0)
           5%N (image_with tt 65535 3 0 false)).
  - reflexivity.
  - vm_compute. split; discriminate.
Defined.

Lemma force_close_idempotent_witness :
  exists (w1 : world) (i1 : aeron_image_t),
    aeron_image_force_close 5%N
      (world_with (image_with tt 65535 2 0 false) 0) = Some (tt, w1) /\
    aeron_image_force_close 5%N w1 = Some (tt, w1) /\
    images w1 !! 5%N = Some i1 /\
    is_closed i1 = true /\
    refcnt i1 = 2 /\
    aeron_image_refcnt_volatile 5%N w1 = Some (2, w1) /\
    dom (images w1)
    = dom (images (world_with (image_with tt 65535 2 0 false) 0)) /\
    (forall other : N, other <> 5%N ->
       images w1 !! other
       = images (world_with (image_with tt 65535 2 0 false) 0) !! other) /\
    cells w1 = cells (world_with (image_with tt 65535 2 0 false) 0).
Proof.
  apply (force_close_idempotent
           (world_with (image_with tt 65535 2 0 false) 0) 5%N
           (image_with tt 65535 2 0 false)).
  reflexivity.
Defined.

Lemma refcnt_concurrent_witness :
  (exists (w' : world) (threads' : list (list refcnt_op)),
     rtc (step 5%N)
       (world_with (image_with tt 65535 0 0 false) 0,
        [[op_incr; op_decr]; [op_incr; op_incr; op_decr]])
       (w', threads') /\ finished threads') /\
  (forall (w' : world) (threads' : list (list refcnt_op)),
     rtc (step 5%N)
       (world_with (image_with tt 65535 0 0 false) 0,
        [[op_incr; op_decr]; [op_incr; op_incr; op_decr]])
       (w', threads') ->
     (finished threads' -> Int64.in_range (3 - 2) ->
      aeron_image_refcnt_volatile 5%N w' = Some (3 - 2, w')) /\
     (Forall (fun prog => releases_held 0 prog = true)
        [[op_incr; op_decr]; [op_incr; op_incr; op_decr]] ->
      3 <= Int64.max_signed ->
      exists v : Z,
        aeron_image_refcnt_volatile 5%N w' = Some (v, w') /\ 0 <= v)).
Proof.
  apply (refcnt_concurrent (world_with (image_with tt 65535 0 0 false) 0) 5%N
           (image_with tt 65535 0 0 false)
           [[op_incr; op_decr]; [op_incr; op_incr; op_decr]]);
    reflexivity.
Defined.

(** One thread that calls [aeron_image_decr_refcnt] and then
    [aeron_image_incr_refcnt] (N = 1, M = 1) on a count of 0: after its first
    call the count read is -1. *)
Lemma refcnt_observed_negative :
  exists w' : world,
    rtc (step 5%N)
      (world_with (image_with tt 65535 0 0 false) 0, [[op_decr; op_incr]])
      (w', [[op_incr]]) /\
    aeron_image_refcnt_volatile 5%N w' = Some (-1, w') /\
    -1 < 0.
Proof.
  exists (with_refcnt 5%N (image_with tt 65535 0 0 false) (-1)
            (world_with (image_with tt 65535 0 0 false) 0)).
  split; [|split; [reflexivity|lia]].
  apply rtc_once.
  exact (step_thread 5%N (world_with (image_with tt 65535 0 0 false) 0) _
           [[op_decr; op_incr]] 0%nat op_decr [op_incr] 0 eq_refl eq_refl).
Qed.

Lemma is_in_use_threshold_witness :
  exists rcn : Z,
    aeron_image_removal_change_number 5%N
      (world_with (image_with tt 65535 0 5 false) 0)
    = Some (rcn, world_with (image_with tt 65535 0 5 false) 0) /\
    (forall n : Z,
       aeron_image_is_in_use_by_subcription 5%N n
         (world_with (image_with tt 65535 0 5 false) 0)
       = Some (rcn >? n, world_with (image_with tt 65535 0 5 false) 0)) /\
    (forall n n' : Z,
       n' <= n ->
       aeron_image_is_in_use_by_subcription 5%N n
         (world_with (image_with tt 65535 0 5 false) 0)
       = Some (true, world_with (image_with tt 65535 0 5 false) 0) ->
       aeron_image_is_in_use_by_subcription 5%N n'
         (world_with (image_with tt 65535 0 5 false) 0)
       = Some (true, world_with (image_with tt 65535 0 5 false) 0)) /\
    aeron_image_is_in_use_by_subcription 5%N rcn
      (world_with (image_with tt 65535 0 5 false) 0)
    = Some (false, world_with (image_with tt 65535 0 5 false) 0) /\
    aeron_image_is_in_use_by_subcription 5%N (rcn - 1)
      (world_with (image_with tt 65535 0 5 false) 0)
    = Some (true, world_with (image_with tt 65535 0 5 false) 0).
Proof.
  apply (is_in_use_threshold (world_with (image_with tt 65535 0 5 false) 0)
           5%N (image_with tt 65535 0 5 false)).
  reflexivity.
Defined.

Lemma validate_position_accepts_iff_witness :
  world_with (image_with tt 65535 0 0 false) 0
  = world_with (image_with tt 65535 0 0 false) 0 /\
  0 <= 96 <= limit_of 0 65535 /\ (32 | 96).
Proof.
  apply (proj1 (validate_position_accepts_iff 32
                  (world_with (image_with tt 65535 0 0 false) 0)
                  (world_with (image_with tt 65535 0 0 false) 0) 5%N
                  (image_with tt 65535 0 0 false) 0 96 5
                  eq_refl eq_refl ltac:(lia) eq_refl)).
  reflexivity.
Defined.

Lemma validate_position_accepted_window_witness :
  65600 <= 65632 <= (65600 / 2 ^ 16 + 1) * 2 ^ 16 /\
  65632 - 65600 <= 2 ^ 16.
Proof.
  refine (validate_position_accepted_window 32
            (world_with (image_with tt 65535 0 0 false) 65600)
            (world_with (image_with tt 65535 0 0 false) 65600) 5%N
            (image_with tt 65535 0 0 false) 65600 65632 16
            eq_refl eq_refl _ eq_refl _ _ eq_refl).
  - lia.
  - vm_compute. split; discriminate.
  - vm_compute. discriminate.
Defined.

Lemma validate_position_repeat_witness :
  aeron_image_validate_position 32 5%N 65568
    (with_error (InvalidPosition 65568 0 65536)
       (world_with (image_with tt 65535 0 0 false) 0))
  = Some (-1, with_error (InvalidPosition 65568 0 65536)
                (world_with (image_with tt 65535 0 0 false) 0)) /\
  (forall q : Z,
     exists (r : Z) (w2 w2' : world),
       aeron_image_validate_position 32 5%N q
         (world_with (image_with tt 65535 0 0 false) 0) = Some (r, w2) /\
       aeron_image_validate_position 32 5%N q
         (with_error (InvalidPosition 65568 0 65536)
            (world_with (image_with tt 65535 0 0 false) 0))
       = Some (r, w2')).
Proof.
  apply (validate_position_repeat 32
           (world_with (image_with tt 65535 0 0 false) 0)
           (with_error (InvalidPosition 65568 0 65536)
              (world_with (image_with tt 65535 0 0 false) 0))
           5%N (image_with tt 65535 0 0 false) 0 65568 (-1));
    reflexivity.
Defined.

Lemma validate_position_advance_witness :
  aeron_image_validate_position 32 5%N 256
    (world_with (image_with tt 65535 0 0 false) 128)
  = Some (0, world_with (image_with tt 65535 0 0 false) 128).
Proof.
  refine (validate_position_advance 32
            (world_with (image_with tt 65535 0 0 false) 64)
            (world_with (image_with tt 65535 0 0 false) 128) 5%N
            (image_with tt 65535 0 0 false) 64 128 256 16
            eq_refl eq_refl eq_refl eq_refl _ eq_refl _ _ _ _ eq_refl).
  - lia.
  - vm_compute. split; discriminate.
  - vm_compute. split; discriminate.
  - vm_compute. discriminate.
  - lia.
Defined.

Lemma validate_position_endpoints_witness :
  aeron_image_validate_position 32 5%N ((65600 / 2 ^ 16 + 1) * 2 ^ 16)
    (world_with (image_with tt 65535 0 0 false) 65600)
  = Some (0, world_with (image_with tt 65535 0 0 false) 65600) /\
  ((32 | 65600) ->
   aeron_image_validate_position 32 5%N 65600
     (world_with (image_with tt 65535 0 0 false) 65600)
   = Some (0, world_with (image_with tt 65535 0 0 false) 65600)).
Proof.
  refine (validate_position_endpoints 32
            (world_with (image_with tt 65535 0 0 false) 65600) 5%N
            (image_with tt 65535 0 0 false) 65600 5 16
            eq_refl eq_refl _ eq_refl _ eq_refl _ _).
  - lia.
  - lia.
  - vm_compute. split; discriminate.
  - vm_compute. discriminate.
Defined.

Lemma decr_incr_roundtrip_witness :
  exists (a b : Z) (w1 : world),
    aeron_image_decr_refcnt 5%N
      (world_with (image_with tt 65535 3 0 false) 0) = Some (a, w1) /\
    aeron_image_incr_refcnt 5%N w1
    = Some (b, world_with (image_with tt 65535 3 0 false) 0) /\
    a = 3 /\
    (Int64.min_signed < 3 -> b = a - 1).
Proof.
  apply (decr_incr_roundtrip (world_with (image_with tt 65535 3 0 false) 0)
           5%N (image_with tt 65535 3 0 false)).
  - reflexivity.
  - vm_compute. split; discriminate.
Defined.

Lemma refcnt_ops_frame_witness :
  cells (with_refcnt 5%N (image_with tt 65535 3 9 false) 4
           (world_with (image_with tt 65535 3 9 false) 64))
  = cells (world_with (image_with tt 65535 3 9 false) 64) /\
  aeron_image_removal_change_number 5%N
    (with_refcnt 5%N (image_with tt 65535 3 9 false) 4
       (world_with (image_with tt 65535 3 9 false) 64))
  = Some (9, with_refcnt 5%N (image_with tt 65535 3 9 false) 4
               (world_with (image_with tt 65535 3 9 false) 64)) /\
  (forall n : Z,
     aeron_image_is_in_use_by_subcription 5%N n
       (with_refcnt 5%N (image_with tt 65535 3 9 false) 4
          (world_with (image_with tt 65535 3 9 false) 64))
     = Some (9 >? n,
             with_refcnt 5%N (image_with tt 65535 3 9 false) 4
               (world_with (image_with tt 65535 3 9 false) 64))) /\
  (forall q : Z,
     exists (code : Z) (w2 w2' : world),
       aeron_image_validate_position 32 5%N q
         (world_with (image_with tt 65535 3 9 false) 64) = Some (code, w2) /\
       aeron_image_validate_position 32 5%N q
         (with_refcnt 5%N (image_with tt 65535 3 9 false) 4
            (world_with (image_with tt 65535 3 9 false) 64))
       = Some (code, w2')).
Proof.
  apply (refcnt_ops_frame 32
           (world_with (image_with tt 65535 3 9 false) 64)
           (with_refcnt 5%N (image_with tt 65535 3 9 false) 4
              (world_with (image_with tt 65535 3 9 false) 64))
           5%N (image_with tt 65535 3 9 false) 64 3 op_incr);
    reflexivity.
Defined.

Lemma refcnt_counts_calls_made_witness :
  exists v : Z,
    aeron_image_refcnt_volatile 5%N
      (with_refcnt 5%N (image_with tt 65535 0 0 false) 1
         (world_with (image_with tt 65535 0 0 false) 0))
    = Some (v, with_refcnt 5%N (image_with tt 65535 0 0 false) 1
                 (world_with (image_with tt 65535 0 0 false) 0)) /\
    v = (2 - 1) - (1 - 1) /\
    0 <= v <= 2 - 1.
Proof.
  refine (refcnt_counts_calls_made
            (world_with (image_with tt 65535 0 0 false) 0)
            (with_refcnt 5%N (image_with tt 65535 0 0 false) 1
               (world_with (image_with tt 65535 0 0 false) 0))
            5%N (image_with tt 65535 0 0 false)
            [[op_incr; op_decr]; [op_incr]] [[op_decr]; [op_incr]]
            eq_refl eq_refl _ _ _).
  - repeat constructor.
  - vm_compute. discriminate.
  - apply rtc_once.
    exact (step_thread 5%N (world_with (image_with tt 65535 0 0 false) 0) _
             [[op_incr; op_decr]; [op_incr]] 0%nat op_incr [op_decr] 0
             eq_refl eq_refl).
Defined.

Lemma refcnt_contract_needed_witness :
  exists (w' : world) (threads' : list (list refcnt_op)) (v : Z),
    rtc (step 5%N)
      (world_with (image_with tt 65535 0 0 false) 0,
       [[op_incr; op_decr]; [op_incr; op_decr; op_decr]])
      (w', threads') /\
    aeron_image_refcnt_volatile 5%N w' = Some (v, w') /\
    v < 0.
Proof.
  refine (refcnt_contract_needed
            (world_with (image_with tt 65535 0 0 false) 0) 5%N
            (image_with tt 65535 0 0 false)
            [[op_incr; op_decr]; [op_incr; op_decr; op_decr]] 1%nat
            [op_incr; op_decr; op_decr] eq_refl eq_refl eq_refl _ eq_refl).
  vm_compute. discriminate.
Defined.
